(** * Portfolio rebalancing demo and slippage features

    A shallow embedding of the single-period rebalancing program of
    [slippage-implementation-1.ipynb] and of the features listed in the
    feature notes, with the properties stated about them.

    Numbers.  The notebook computes in floating point; here every number is
    an exact rational ([Q], compared with [==]).  Vectors (numpy arrays and
    cvxpy expressions of shape [(n,)]) are lists of rationals. *)

From Stdlib Require Import ZArith QArith Qabs Qround Lqa List Lia Bool.
Import ListNotations.
Open Scope Q_scope.

(** ** Vector arithmetic used by the notebook *)

Definition vec := list Q.

(** [sum(v)] and [cp.sum(v)]. *)
Fixpoint vsum (v : vec) : Q :=
  match v with
  | [] => 0
  | h :: t => h + vsum t
  end.

(** [u + v], componentwise. *)
Fixpoint vadd (u v : vec) : vec :=
  match u, v with
  | a :: u', b :: v' => (a + b) :: vadd u' v'
  | _, _ => []
  end.

(** [a.T @ v]. *)
Fixpoint dot (a v : vec) : Q :=
  match a, v with
  | p :: a', q :: v' => p * q + dot a' v'
  | _, _ => 0
  end.

(** [cp.abs(v)], componentwise. *)
Definition vabs (v : vec) : vec := map Qabs v.

(** The vector of [k] zeros. *)
Definition zeros (k : nat) : vec := repeat 0 k.

(** The vector of length [k] that holds [v] at index [i] and zero elsewhere. *)
Fixpoint spike (k i : nat) (v : Q) : vec :=
  match k with
  | O => []
  | S k' =>
      match i with
      | O => v :: zeros k'
      | S i' => 0 :: spike k' i' v
      end
  end.

(** Index of the first entry that no other entry beats, where [beats p q]
    says that [p] is at least as good as [q]. *)
Fixpoint arg (beats : Q -> Q -> bool) (a : vec) : nat :=
  match a with
  | [] => O
  | h :: t =>
      match t with
      | [] => O
      | _ :: _ => if beats h (nth (arg beats t) t 0) then O else S (arg beats t)
      end
  end.

Definition argmax (a : vec) : nat := arg (fun p q => Qle_bool q p) a.
Definition argmin (a : vec) : nat := arg (fun p q => Qle_bool p q) a.

(** [max_i a_i] and [min_i a_i]. *)
Definition vmax (a : vec) : Q := nth (argmax a) a 0.
Definition vmin (a : vec) : Q := nth (argmin a) a 0.

(** ** The rebalancing cell *)

(** The variables the cell reads: [n], [w], [a_bar], [r_min]. *)
Record PortfolioState := mkState {
  n : nat;
  w : vec;
  a_bar : vec;
  r_min : Q
}.

(** The transaction cost function, [phi(x) = cp.sum(cp.abs(x))]. *)
Definition phi (x : vec) : Q := vsum (vabs x).

(** The first constraint, [a_bar.T @ (w + x) / sum(w) >= r_min]. *)
Definition return_floor (s : PortfolioState) (x : vec) : bool :=
  Qle_bool (r_min s) (dot (a_bar s) (vadd (w s) x) / vsum (w s)).

(** The second constraint, [cp.sum(w + x) == cp.sum(w)]. *)
Definition value_kept (s : PortfolioState) (x : vec) : bool :=
  Qeq_bool (vsum (vadd (w s) x)) (vsum (w s)).

(** [constraints = [ ... , ... ]]. *)
Definition constraints (s : PortfolioState) : list (vec -> bool) :=
  [return_floor s; value_kept s].

(** A minimisation problem over a real vector variable:
    [cp.Problem(cp.Minimize(objective), constraints)] with
    [x = cp.Variable(dim)]. *)
Record Problem := mkProblem {
  dim : nat;
  objective : vec -> Q;
  subject_to : list (vec -> bool)
}.

(** [problem = cp.Problem(objective, constraints)]. *)
Definition problem (s : PortfolioState) : Problem :=
  {| dim := n s; objective := phi; subject_to := constraints s |}.

(** A value of the variable that meets every constraint. *)
Definition feasible (p : Problem) (x : vec) : Prop :=
  length x = dim p /\ forallb (fun c => c x) (subject_to p) = true.

(** What [problem.solve()] can report: an optimal value of the variable,
    or that the problem is infeasible, or that it is unbounded below. *)
Inductive Outcome :=
| Optimal (x : vec)
| Infeasible
| Unbounded.

(** The contract of the external convex solver, in exact arithmetic: an
    optimal point is feasible and no feasible point has a smaller objective;
    infeasible means no feasible point at all; unbounded means feasible
    points of arbitrarily small objective. *)
Definition Solves (p : Problem) (o : Outcome) : Prop :=
  match o with
  | Optimal x =>
      feasible p x /\ forall y, feasible p y -> objective p x <= objective p y
  | Infeasible => forall y, ~ feasible p y
  | Unbounded => forall bound, exists y, feasible p y /\ objective p y < bound
  end.

(** The inputs on which the arithmetic of the cell is defined: the shapes
    of [w] and [a_bar] agree with that of the variable, and the total
    [sum(w)] that the return is divided by is not zero.  The embedding says
    nothing about the cell outside this domain. *)
Definition well_posed (s : PortfolioState) : Prop :=
  length (w s) = n s /\ length (a_bar s) = n s /\ ~ vsum (w s) == 0.

(** The cell as a whole: build the problem from the inputs as they are
    and hand it to the solver.  No check of the inputs precedes the solve. *)
Definition Rebalancer (s : PortfolioState) (o : Outcome) : Prop :=
  well_posed s /\ Solves (problem s) o.

(** The invariant the description puts on an input: [n >= 1], both vectors
    of length [n], no negative holding.  (A rational [r_min] is finite.) *)
Definition valid (s : PortfolioState) : Prop :=
  (1 <= n s)%nat /\ length (w s) = n s /\ length (a_bar s) = n s /\
  Forall (fun h => 0 <= h) (w s).

(** [w + x.value], the portfolio after the trades. *)
Definition optimized (s : PortfolioState) (x : vec) : vec := vadd (w s) x.

(** The return the first constraint bounds. *)
Definition weighted_return (s : PortfolioState) (x : vec) : Q :=
  dot (a_bar s) (vadd (w s) x) / vsum (w s).

(** The sum of absolute trade amounts of a trade vector, its 1-norm, as
    the description states the objective; written out on its own, and
    compared with the cell's [phi] in the properties below. *)
Fixpoint l1_norm (x : vec) : Q :=
  match x with
  | [] => 0
  | q :: t => Qabs q + l1_norm t
  end.

(** *** An exact minimiser

    The program has a closed-form solution when the total is positive: if
    the present holdings already meet the floor nothing is traded; otherwise
    the missing return is bought by moving value from the asset of least
    expected return to the asset of greatest expected return, which is
    impossible exactly when all expected returns coincide. *)

(** The expected value still missing to reach the floor. *)
Definition deficit (s : PortfolioState) : Q :=
  r_min s * vsum (w s) - dot (a_bar s) (w s).

Definition exact_solve (s : PortfolioState) : Outcome :=
  let d := deficit s in
  if Qle_bool d 0 then Optimal (zeros (n s))
  else
    let gap := vmax (a_bar s) - vmin (a_bar s) in
    if Qle_bool gap 0 then Infeasible
    else
      let t := d / gap in
      Optimal (vadd (spike (n s) (argmax (a_bar s)) t)
                    (spike (n s) (argmin (a_bar s)) (- t))).

(** *** The notebook around the cell *)






(** The data of the demo, as the notebook prints it. *)
Definition demo : PortfolioState :=
  {| n := 5;
     w := [45; 48; 65; 68; 68];
     a_bar := [184725174 # 100000000; 16235637 # 10000000;
               138438171 # 100000000; 129753461 # 100000000;
               105671298 # 100000000];
     r_min := 15 # 10 |}.

(** *** Small inputs used as examples *)

(** Two assets of one unit each, returns 1 and 2, and a floor of 1.75. *)
Definition two_assets : PortfolioState := mkState 2 [1; 1] [1; 2] (7 # 4).

(** Two assets of one unit each, returns 1 and 2, and a floor of 3, above
    both returns. *)
Definition high_floor : PortfolioState := mkState 2 [1; 1] [1; 2] 3.

(** Two assets of which nothing is held, returns 1 and 2, and the floor of
    1.5 of the demo. *)
Definition zero_total : PortfolioState := mkState 2 [0; 0] [1; 2] (15 # 10).

(** ** Features *)

Module Features.

(** Modelled from the spec: the result type of the absent feature code.
    The result of a feature is a number, the sentinel for an undefined
    value (degenerate denominator, insufficient history), or the rejection
    of a malformed observation. *)
Inductive Result :=
| Value (q : Q)
| UndefinedValue
| InvalidInput.

(** Modelled from the spec: the notebook that computes the bid-ask bounce
    is not among the sources, only the note that describes it.  The feature
    is the raw ratio [(t - b) / (a - b)] of the trade price [t] within the
    quoted bid [b] and ask [a], never clamped, and undefined when
    [a == b]. *)
Definition bid_ask_bounce (t b a : Q) : Result :=
  if Qeq_bool a b then UndefinedValue else Value ((t - b) / (a - b)).







End Features.

(** ** The cells around the solve *)

(** [sum(w)], printed as the current portfolio value. *)
Definition current_value (s : PortfolioState) : Q := vsum (w s).

(** [a_bar.T @ w], printed as the value expected after the returns. *)
Definition expected_value (s : PortfolioState) : Q := dot (a_bar s) (w s).

(** An entry of [np.random.randint(1, 101, n)]: a whole number from 1 to
    100. *)
Definition drawn_holding (h : Q) : bool :=
  Qeq_bool h (inject_Z (Qfloor h)) && Qle_bool 1 h && Qle_bool h 100.

(** An entry of [np.ones(n) + np.random.rand(n)]: one plus a draw from
    [0, 1), the sum rounded to a float, so at least 1 and at most 2 (the
    greatest draw rounds up to exactly 2). *)
Definition drawn_return (a : Q) : bool :=
  Qle_bool 1 a && Qle_bool a 2.

(** What the data cell can leave in [n], [w], [a_bar] and [r_min], whatever
    the seed: [n] holdings and [n] returns drawn as above, and a floor of
    1.5. *)
Definition generated (s : PortfolioState) : bool :=
  Nat.eqb (length (w s)) (n s) && Nat.eqb (length (a_bar s)) (n s) &&
  forallb drawn_holding (w s) && forallb drawn_return (a_bar s) &&
  Qeq_bool (r_min s) (15 # 10).

(** *** Changes of the inputs *)

(** [c * v], a vector scaled by a number. *)
Definition vscale (c : Q) (v : vec) : vec := map (Qmult c) v.

(** The same inputs with another floor. *)
Definition with_floor (r : Q) (s : PortfolioState) : PortfolioState :=
  {| n := n s; w := w s; a_bar := a_bar s; r_min := r |}.

(** The same inputs with every holding multiplied by [c]. *)
Definition scale_holdings (c : Q) (s : PortfolioState) : PortfolioState :=
  {| n := n s; w := vscale c (w s); a_bar := a_bar s; r_min := r_min s |}.

(** The same inputs with [c] added to every expected return and to the
    floor. *)
Definition shift_returns (c : Q) (s : PortfolioState) : PortfolioState :=
  {| n := n s; w := w s; a_bar := map (fun a => a + c) (a_bar s);
     r_min := r_min s + c |}.

(** Three assets of one unit each, the two best with the same return, and
    a floor of 2. *)
Definition tied_returns : PortfolioState := mkState 3 [1; 1; 1] [1; 2; 2] 2.

(** *** The cell on inputs as a caller may give them *)












(** Case split on the sign of [q], rewriting [Qabs q] in [H]. *)
Ltac abs_sign q H :=
  destruct (Qlt_le_dec q 0);
  [rewrite (Qabs_neg q) in H by lra | rewrite (Qabs_pos q) in H by lra].

(** ** Vector lemmas *)

Section VectorFacts.

Lemma vsum_vadd (u v : vec) :
  length u = length v -> vsum (vadd u v) == vsum u + vsum v.
Proof.
  revert v; induction u as [|a u IH]; intros [|b v] E; simpl in *;
    try discriminate; [lra|].
  injection E as E. rewrite (IH v E). lra.
Qed.

Lemma dot_vadd (a u v : vec) :
  length u = length v -> dot a (vadd u v) == dot a u + dot a v.
Proof.
  revert u v; induction a as [|p a IH]; intros [|b u] [|c v] E; simpl in *;
    try discriminate; try lra.
  injection E as E. rewrite (IH u v E). lra.
Qed.

Lemma length_vadd (u v : vec) :
  length u = length v -> length (vadd u v) = length u.
Proof.
  revert v; induction u as [|a u IH]; intros [|b v] E; simpl in *;
    try discriminate; [reflexivity|].
  injection E as E. now rewrite (IH v E).
Qed.

Lemma phi_cons (a : Q) (x : vec) : phi (a :: x) = Qabs a + phi x.
Proof. reflexivity. Qed.

Lemma phi_nonneg (x : vec) : 0 <= phi x.
Proof.
  induction x as [|a x IH]; [unfold phi; simpl; lra|].
  rewrite phi_cons. pose proof (Qabs_nonneg a). lra.
Qed.

Lemma phi_vadd (u v : vec) : phi (vadd u v) <= phi u + phi v.
Proof.
  revert v; induction u as [|a u IH]; intros [|b v].
  - unfold phi; simpl; lra.
  - pose proof (phi_nonneg (b :: v)). change (phi (vadd [] (b :: v))) with 0.
    change (phi []) with 0. lra.
  - pose proof (phi_nonneg (a :: u)). change (phi (vadd (a :: u) [])) with 0.
    change (phi []) with 0. lra.
  - change (vadd (a :: u) (b :: v)) with ((a + b) :: vadd u v).
    rewrite !phi_cons.
    pose proof (Qabs_triangle a b). specialize (IH v). lra.
Qed.

Lemma length_zeros (k : nat) : length (zeros k) = k.
Proof. apply repeat_length. Qed.

Lemma vsum_zeros (k : nat) : vsum (zeros k) == 0.
Proof. induction k as [|k IH]; simpl; [lra|]. rewrite IH. lra. Qed.

Lemma dot_zeros (a : vec) (k : nat) : dot a (zeros k) == 0.
Proof.
  revert k; induction a as [|p a IH]; intros [|k]; simpl; try lra.
  rewrite IH. lra.
Qed.

Lemma phi_zeros (k : nat) : phi (zeros k) == 0.
Proof.
  induction k as [|k IH]; [reflexivity|].
  change (zeros (S k)) with (0 :: zeros k). rewrite phi_cons, IH. reflexivity.
Qed.

Lemma length_spike (k i : nat) (v : Q) : length (spike k i v) = k.
Proof.
  revert i; induction k as [|k IH]; intros [|i]; simpl; auto.
  now rewrite length_zeros.
Qed.

Lemma vsum_spike (k i : nat) (v : Q) : (i < k)%nat -> vsum (spike k i v) == v.
Proof.
  revert i; induction k as [|k IH]; intros [|i] L; simpl; try lia.
  - rewrite vsum_zeros. lra.
  - rewrite IH by lia. lra.
Qed.

Lemma dot_spike (a : vec) (i : nat) (v : Q) :
  (i < length a)%nat -> dot a (spike (length a) i v) == nth i a 0 * v.
Proof.
  revert i; induction a as [|p a IH]; intros [|i] L; simpl in *; try lia.
  - rewrite dot_zeros. lra.
  - rewrite IH by lia. lra.
Qed.

Lemma phi_spike (k i : nat) (v : Q) : phi (spike k i v) <= Qabs v.
Proof.
  revert i; induction k as [|k IH]; intros [|i]; simpl.
  - apply Qabs_nonneg.
  - apply Qabs_nonneg.
  - rewrite phi_cons, phi_zeros. lra.
  - rewrite phi_cons. specialize (IH i). change (Qabs 0) with 0. lra.
Qed.

End VectorFacts.

(** ** The best entry of a vector *)

Section Best.

Variable R : Q -> Q -> Prop.
Variable beats : Q -> Q -> bool.
Hypothesis R_refl : forall p, R p p.
Hypothesis R_trans : forall p q r, R p q -> R q r -> R p r.
Hypothesis beats_true : forall p q, beats p q = true -> R p q.
Hypothesis beats_false : forall p q, beats p q = false -> R q p.

Lemma arg_lt (a : vec) : a <> [] -> (arg beats a < length a)%nat.
Proof.
  induction a as [|h t IH]; [congruence|]. intros _.
  destruct t as [|c t']; [simpl; lia|].
  assert (L : (arg beats (c :: t') < length (c :: t'))%nat)
    by (apply IH; discriminate).
  change (arg beats (h :: c :: t')) with
    (if beats h (nth (arg beats (c :: t')) (c :: t') 0)
     then O else S (arg beats (c :: t'))).
  destruct (beats h _); simpl in *; lia.
Qed.

Lemma arg_best (a : vec) : Forall (fun q => R (nth (arg beats a) a 0) q) a.
Proof.
  induction a as [|h t IH]; [constructor|].
  destruct t as [|c t']; [repeat constructor; apply R_refl|].
  change (arg beats (h :: c :: t')) with
    (if beats h (nth (arg beats (c :: t')) (c :: t') 0)
     then O else S (arg beats (c :: t'))).
  destruct (beats h (nth (arg beats (c :: t')) (c :: t') 0)) eqn:B.
  - constructor; [apply R_refl|].
    apply beats_true in B.
    eapply Forall_impl; [|exact IH]. intros q Hq.
    exact (R_trans _ _ _ B Hq).
  - apply beats_false in B.
    constructor; [exact B|exact IH].
Qed.

End Best.

Lemma argmax_lt (a : vec) : a <> [] -> (argmax a < length a)%nat.
Proof. apply arg_lt. Qed.

Lemma argmin_lt (a : vec) : a <> [] -> (argmin a < length a)%nat.
Proof. apply arg_lt. Qed.

Lemma vmax_upper (a : vec) : Forall (fun q => q <= vmax a) a.
Proof.
  unfold vmax, argmax.
  apply (arg_best (fun p q => q <= p) (fun p q => Qle_bool q p)).
  - intros p; lra.
  - intros p q r H1 H2; lra.
  - intros p q H; now apply Qle_bool_iff.
  - intros p q H. destruct (Qlt_le_dec p q) as [L|L]; [lra|].
    apply Qle_bool_iff in L. congruence.
Qed.

Lemma vmin_lower (a : vec) : Forall (fun q => vmin a <= q) a.
Proof.
  unfold vmin, argmin.
  apply (arg_best (fun p q => p <= q) (fun p q => Qle_bool p q)).
  - intros p; lra.
  - intros p q r H1 H2; lra.
  - intros p q H; now apply Qle_bool_iff.
  - intros p q H. destruct (Qlt_le_dec q p) as [L|L]; [lra|].
    apply Qle_bool_iff in L. congruence.
Qed.

Lemma vmin_le_vmax (a : vec) : a <> [] -> vmin a <= vmax a.
Proof.
  intros NE. pose proof (vmax_upper a) as U.
  rewrite Forall_forall in U. apply U. unfold vmin.
  apply nth_In. now apply argmin_lt.
Qed.

(** ** The inequality behind the optimum *)

(** For returns between [lo] and [hi], the value a trade vector gains is
    bounded by its net amount and its volume. *)
Lemma dot_bound (lo hi : Q) (a y : vec) :
  Forall (fun q => lo <= q /\ q <= hi) a ->
  length a = length y ->
  2 * dot a y <= (lo + hi) * vsum y + (hi - lo) * phi y.
Proof.
  intros B; revert y; induction B as [|p a [L H] B IH]; intros [|q y] E;
    simpl in E; try discriminate.
  - unfold phi; simpl; lra.
  - injection E as E. specialize (IH y E).
    rewrite phi_cons. simpl dot. simpl vsum.
    destruct (Qlt_le_dec q 0) as [N|P].
    + rewrite (Qabs_neg q) by lra.
      assert (M : (p - lo) * (- q) >= 0) by (apply Qmult_le_0_compat; lra).
      lra.
    + rewrite (Qabs_pos q) by lra.
      assert (M : (hi - p) * q >= 0) by (apply Qmult_le_0_compat; lra).
      lra.
Qed.

Lemma bounds_of (a : vec) :
  Forall (fun q => vmin a <= q /\ q <= vmax a) a.
Proof.
  pose proof (vmax_upper a) as U. pose proof (vmin_lower a) as L.
  rewrite Forall_forall in *. intros q I. split; auto.
Qed.

(** With every holding non-negative the expected value is at most the
    greatest return times the total. *)
Lemma dot_le_vmax (a h : vec) :
  length a = length h -> Forall (fun q => 0 <= q) h ->
  dot a h <= vmax a * vsum h.
Proof.
  intros E P. pose proof (vmax_upper a) as U. revert U. generalize (vmax a) as m.
  intros m U. revert h E P.
  induction U as [|p a Hp U IH]; intros [|q h] E P; simpl in E;
    try discriminate; simpl; [lra|].
  injection E as E. inversion P as [|? ? Hq P']; subst.
  specialize (IH h E P').
  assert (M : 0 <= (m - p) * q) by (apply Qmult_le_0_compat; lra).
  lra.
Qed.

(** ** What the constraints say *)

Lemma Qle_div_iff (a b c : Q) : 0 < c -> (a <= b / c <-> a * c <= b).
Proof.
  intros C; split; intros H.
  - assert (E : b == b / c * c) by (field; lra).
    rewrite E. apply Qmult_le_compat_r; lra.
  - now apply Qle_shift_div_l.
Qed.

Lemma feasible_parts (s : PortfolioState) (x : vec) :
  feasible (problem s) x <->
  length x = n s /\ r_min s <= weighted_return s x /\
  vsum (optimized s x) == vsum (w s).
Proof.
  unfold feasible, problem, constraints, return_floor, value_kept,
    weighted_return, optimized; simpl.
  rewrite andb_true_r, andb_true_iff, Qle_bool_iff, Qeq_bool_iff. tauto.
Qed.

Lemma feasible_iff (s : PortfolioState) (x : vec) :
  length (w s) = n s -> 0 < vsum (w s) ->
  (feasible (problem s) x <->
   length x = n s /\ deficit s <= dot (a_bar s) x /\ vsum x == 0).
Proof.
  intros Lw Pos. rewrite feasible_parts.
  unfold weighted_return, optimized, deficit.
  split; intros (Lx & F & K); (split; [exact Lx|]).
  - assert (E : length (w s) = length x) by congruence.
    rewrite Qle_div_iff in F by exact Pos.
    rewrite dot_vadd in F by exact E. rewrite vsum_vadd in K by exact E.
    split; lra.
  - assert (E : length (w s) = length x) by congruence.
    rewrite Qle_div_iff by exact Pos.
    rewrite dot_vadd by exact E. rewrite vsum_vadd by exact E.
    split; lra.
Qed.

(** Every feasible trade vector trades at least twice the deficit divided
    by the spread of the expected returns. *)
Lemma feasible_volume (s : PortfolioState) (y : vec) :
  length (w s) = n s -> length (a_bar s) = n s -> 0 < vsum (w s) ->
  feasible (problem s) y ->
  2 * deficit s <= (vmax (a_bar s) - vmin (a_bar s)) * phi y.
Proof.
  intros Lw La Pos F. apply feasible_iff in F; auto.
  destruct F as (Ly & D & Z).
  pose proof (dot_bound (vmin (a_bar s)) (vmax (a_bar s)) (a_bar s) y
                (bounds_of (a_bar s))) as B.
  specialize (B ltac:(congruence)).
  rewrite Z in B. lra.
Qed.

(** ** The exact minimiser meets the solver's contract *)

Lemma nonempty_of_length (a : vec) (k : nat) :
  length a = k -> (1 <= k)%nat -> a <> [].
Proof. intros E L ->. simpl in E. lia. Qed.

Theorem exact_solve_correct (s : PortfolioState) :
  (1 <= n s)%nat -> length (w s) = n s -> length (a_bar s) = n s ->
  0 < vsum (w s) ->
  Solves (problem s) (exact_solve s).
Proof.
  intros N1 Lw La Pos. unfold exact_solve.
  pose proof (nonempty_of_length _ _ La N1) as NE.
  destruct (Qle_bool (deficit s) 0) eqn:D.
  - apply Qle_bool_iff in D. split.
    + apply feasible_iff; auto. rewrite length_zeros, dot_zeros, vsum_zeros.
      split; [reflexivity|split; [lra|reflexivity]].
    + intros y _. simpl. rewrite phi_zeros. apply phi_nonneg.
  - assert (Dpos : 0 < deficit s).
    { destruct (Qlt_le_dec 0 (deficit s)) as [H|H]; [exact H|].
      apply Qle_bool_iff in H. congruence. }
    clear D.
    destruct (Qle_bool (vmax (a_bar s) - vmin (a_bar s)) 0) eqn:G.
    + apply Qle_bool_iff in G. intros y F.
      pose proof (feasible_volume s y Lw La Pos F) as V.
      pose proof (phi_nonneg y) as P.
      assert (M : 0 <= (vmin (a_bar s) - vmax (a_bar s)) * phi y)
        by (apply Qmult_le_0_compat; lra).
      lra.
    + assert (Gpos : 0 < vmax (a_bar s) - vmin (a_bar s)).
      { destruct (Qlt_le_dec 0 (vmax (a_bar s) - vmin (a_bar s))) as [H|H];
          [exact H|]. apply Qle_bool_iff in H. congruence. }
      clear G.
      set (gap := vmax (a_bar s) - vmin (a_bar s)) in *.
      set (t := deficit s / gap).
      assert (Tpos : 0 < t).
      { unfold t. apply Qlt_shift_div_l; [exact Gpos|lra]. }
      assert (Tgap : t * gap == deficit s) by (unfold t; field; lra).
      assert (Ls : length (spike (n s) (argmax (a_bar s)) t) =
                   length (spike (n s) (argmin (a_bar s)) (- t)))
        by now rewrite !length_spike.
      split.
      * apply feasible_iff; auto.
        rewrite length_vadd, length_spike by exact Ls.
        split; [reflexivity|].
        rewrite dot_vadd, vsum_vadd by exact Ls.
        rewrite <- La.
        rewrite !dot_spike by (now apply argmax_lt || now apply argmin_lt).
        rewrite !vsum_spike by (now apply argmax_lt || now apply argmin_lt).
        fold (vmax (a_bar s)) (vmin (a_bar s)).
        split; [|lra].
        assert (E : vmax (a_bar s) * t + vmin (a_bar s) * - t == t * gap)
          by (unfold gap; ring).
        rewrite E, Tgap. lra.
      * intros y F. simpl.
        pose proof (feasible_volume s y Lw La Pos F) as V. fold gap in V.
        pose proof (phi_vadd (spike (n s) (argmax (a_bar s)) t)
                             (spike (n s) (argmin (a_bar s)) (- t))) as T.
        pose proof (phi_spike (n s) (argmax (a_bar s)) t) as T1.
        pose proof (phi_spike (n s) (argmin (a_bar s)) (- t)) as T2.
        rewrite Qabs_opp in T2. rewrite (Qabs_pos t) in T1, T2 by lra.
        assert (B : 2 * t <= phi y).
        { assert (E : 2 * t == 2 * deficit s / gap) by (unfold t; field; lra).
          rewrite E. apply Qle_shift_div_r; [exact Gpos|lra]. }
        lra.
Qed.

(** ** Outcomes of the solve *)

(** Two outcomes the contract allows for one problem are of the same kind,
    and two optimal points have the same objective. *)
Lemma Solves_agree (p : Problem) (o1 o2 : Outcome) :
  Solves p o1 -> Solves p o2 ->
  match o1, o2 with
  | Optimal x, Optimal y => objective p x == objective p y
  | Infeasible, Infeasible => True
  | Unbounded, Unbounded => True
  | _, _ => False
  end.
Proof.
  destruct o1 as [x| |], o2 as [y| |]; simpl; intros H1 H2; auto.
  - destruct H1 as [F1 M1], H2 as [F2 M2].
    specialize (M1 y F2). specialize (M2 x F1). lra.
  - destruct H1 as [F1 _]. exact (H2 x F1).
  - destruct H1 as [F1 M1]. destruct (H2 (objective p x)) as (y & Fy & Ly).
    specialize (M1 y Fy). lra.
  - destruct H2 as [F2 _]. exact (H1 y F2).
  - destruct (H2 0) as (y & Fy & _). exact (H1 y Fy).
  - destruct H2 as [F2 M2]. destruct (H1 (objective p y)) as (z & Fz & Lz).
    specialize (M2 z Fz). lra.
  - destruct (H1 0) as (y & Fy & _). exact (H2 y Fy).
Qed.

(** The cost is never negative, so the program is never unbounded. *)
Lemma never_unbounded (s : PortfolioState) : ~ Solves (problem s) Unbounded.
Proof.
  intros U. destruct (U 0) as (y & _ & L). simpl in L.
  pose proof (phi_nonneg y). lra.
Qed.

Lemma vsum_nonneg (h : vec) : Forall (fun q => 0 <= q) h -> 0 <= vsum h.
Proof. induction 1 as [|q h Hq _ IH]; simpl; lra. Qed.

Lemma valid_total_pos (s : PortfolioState) :
  valid s -> ~ vsum (w s) == 0 -> 0 < vsum (w s).
Proof.
  intros (_ & _ & _ & P) NZ. pose proof (vsum_nonneg _ P) as G.
  destruct (Qlt_le_dec 0 (vsum (w s))) as [L|L]; [exact L|].
  exfalso; apply NZ; lra.
Qed.

(** On a well-shaped input of positive total the exact minimiser is an
    outcome of the cell. *)
Lemma Rebalancer_exact (s : PortfolioState) :
  (1 <= n s)%nat -> length (w s) = n s -> length (a_bar s) = n s ->
  0 < vsum (w s) ->
  Rebalancer s (exact_solve s).
Proof.
  intros N1 Lw La Pos. split.
  - repeat split; auto. intros Z. lra.
  - now apply exact_solve_correct.
Qed.

(** With every holding non-negative the expected value is at least the
    least return times the total. *)
Lemma dot_ge_vmin (a h : vec) :
  length a = length h -> Forall (fun q => 0 <= q) h ->
  vmin a * vsum h <= dot a h.
Proof.
  intros E P. pose proof (vmin_lower a) as U. revert U. generalize (vmin a) as m.
  intros m U. revert h E P.
  induction U as [|p a Hp U IH]; intros [|q h] E P; simpl in E;
    try discriminate; simpl; [lra|].
  injection E as E. inversion P as [|? ? Hq P']; subst.
  specialize (IH h E P').
  assert (M : 0 <= (p - m) * q) by (apply Qmult_le_0_compat; lra).
  lra.
Qed.

Lemma Qle_bool_false (p q : Q) : Qle_bool p q = false <-> q < p.
Proof.
  split; intros H.
  - destruct (Qlt_le_dec q p) as [L|L]; [exact L|].
    apply Qle_bool_iff in L. congruence.
  - destruct (Qle_bool p q) eqn:E; [|reflexivity].
    apply Qle_bool_iff in E. lra.
Qed.

(** When the exact minimiser reports infeasibility. *)
Lemma exact_solve_infeasible (s : PortfolioState) :
  valid s -> 0 < vsum (w s) ->
  (exact_solve s = Infeasible <->
   vmax (a_bar s) < r_min s /\ vmin (a_bar s) == vmax (a_bar s)).
Proof.
  intros (N1 & Lw & La & P) Pos.
  pose proof (nonempty_of_length _ _ La N1) as NE.
  pose proof (vmin_le_vmax _ NE) as MM.
  pose proof (dot_ge_vmin (a_bar s) (w s) ltac:(congruence) P) as Lo.
  pose proof (dot_le_vmax (a_bar s) (w s) ltac:(congruence) P) as Hi.
  unfold exact_solve, deficit.
  destruct (Qle_bool (r_min s * vsum (w s) - dot (a_bar s) (w s)) 0) eqn:D.
  - apply Qle_bool_iff in D. split; [discriminate|].
    intros [L E]. exfalso.
    assert (M : 0 < (r_min s - vmax (a_bar s)) * vsum (w s))
      by (apply Qmult_lt_0_compat; lra).
    rewrite <- E in Hi, M. lra.
  - apply Qle_bool_false in D.
    destruct (Qle_bool (vmax (a_bar s) - vmin (a_bar s)) 0) eqn:G.
    + apply Qle_bool_iff in G. split; [intros _|reflexivity].
      assert (E : vmin (a_bar s) == vmax (a_bar s)) by lra.
      split; [|exact E].
      destruct (Qlt_le_dec (vmax (a_bar s)) (r_min s)) as [L|L]; [exact L|].
      exfalso.
      assert (M : 0 <= (vmax (a_bar s) - r_min s) * vsum (w s))
        by (apply Qmult_le_0_compat; lra).
      rewrite E in Lo. lra.
    + apply Qle_bool_false in G. split; [discriminate|]. intros [_ E]. lra.
Qed.

(** ** Properties of the rebalancer *)

(** C1. Value conservation: on every valid input on which the rebalancer
    returns a trade vector [x], the holdings after the trades sum to what
    they summed to before, exactly and hence within a relative tolerance of
    one millionth. *)
Theorem value_conservation (s : PortfolioState) (x : vec) :
  valid s -> Rebalancer s (Optimal x) ->
  vsum (optimized s x) == vsum (w s) /\
  Qabs (vsum (optimized s x) - vsum (w s)) <= (1 # 1000000) * Qabs (vsum (w s)).
Proof.
  intros _ (_ & F & _). apply feasible_parts in F. destruct F as (_ & _ & K).
  split; [exact K|].
  assert (E : vsum (optimized s x) - vsum (w s) == 0) by lra.
  rewrite E. change (Qabs 0) with 0.
  pose proof (Qabs_nonneg (vsum (w s))). lra.
Qed.

(** C2, as stated, fails: a valid input may hold nothing.  With holdings
    [0, 0], returns [1, 2] and the floor of 1.5, which is below the greatest
    return, the first constraint divides by a total of zero, the problem the
    cell builds has no feasible point, and no trade vector is returned. *)
Lemma zero_total_returns_nothing :
  valid zero_total /\
  r_min zero_total <= vmax (a_bar zero_total) /\
  Solves (problem zero_total) Infeasible /\
  (forall x, ~ Solves (problem zero_total) (Optimal x)) /\
  (forall x, ~ Rebalancer zero_total (Optimal x)).
Proof.
  assert (I : Solves (problem zero_total) Infeasible).
  { intros y F. apply feasible_parts in F. destruct F as (_ & Fl & _).
    unfold weighted_return in Fl.
    assert (Z : dot (a_bar zero_total) (vadd (w zero_total) y) /
                vsum (w zero_total) == 0).
    { unfold Qdiv. change (/ vsum (w zero_total)) with 0. ring. }
    rewrite Z in Fl. revert Fl. vm_compute. intros Fl. now apply Fl. }
  split; [|split; [vm_compute; discriminate|]].
  - unfold valid, zero_total; simpl.
    repeat split; try lia; repeat constructor; lra.
  - split; [exact I|]. split.
    + intros x [F _]. exact (I x F).
    + intros x (_ & F & _). exact (I x F).
Qed.

(** C2, amended. Return floor: on every valid input whose total holdings
    are not zero and whose floor does not exceed the greatest expected
    return, a trade vector is returned, and every trade vector [x] the
    rebalancer returns has [dot(a_bar, w + x) / sum(w) >= r_min], exactly
    and hence within one millionth. *)
Theorem return_floor_met (s : PortfolioState) :
  valid s -> ~ vsum (w s) == 0 -> r_min s <= vmax (a_bar s) ->
  (exists x, Rebalancer s (Optimal x)) /\
  (forall x, Rebalancer s (Optimal x) ->
     r_min s <= dot (a_bar s) (vadd (w s) x) / vsum (w s) /\
     r_min s - (1 # 1000000) <= dot (a_bar s) (vadd (w s) x) / vsum (w s)).
Proof.
  intros V NZ M. split.
  - pose proof (valid_total_pos s V NZ) as Pos.
    pose proof V as (N1 & Lw & La & _).
    pose proof (Rebalancer_exact s N1 Lw La Pos) as R.
    destruct (exact_solve s) as [x| |] eqn:E.
    + now exists x.
    + apply (exact_solve_infeasible s V Pos) in E. lra.
    + destruct R as [_ U]. now apply never_unbounded in U.
  - intros x (_ & F & _). apply feasible_parts in F.
    destruct F as (_ & F & _). unfold weighted_return in F. split; lra.
Qed.

(** The cell's cost function is the sum of absolute trade amounts. *)
Lemma phi_is_l1_norm (x : vec) : phi x = l1_norm x.
Proof.
  induction x as [|q x IH]; [reflexivity|].
  rewrite phi_cons, IH. reflexivity.
Qed.

(** C3. L1-optimality: on every valid input on which the rebalancer returns
    a trade vector [x], the quantity the cell minimises is the sum of
    absolute trade amounts, and no vector [y] of length [n] that satisfies
    the return floor [a_bar.(w + y) / sum(w) >= r_min] and conserves the
    value [sum(w + y) == sum(w)] has a smaller sum of absolute trade
    amounts than [x]. *)
Theorem l1_optimality (s : PortfolioState) (x : vec) :
  valid s -> Rebalancer s (Optimal x) ->
  objective (problem s) x = l1_norm x /\
  forall y, length y = n s ->
            r_min s <= dot (a_bar s) (vadd (w s) y) / vsum (w s) ->
            vsum (vadd (w s) y) == vsum (w s) ->
            l1_norm x <= l1_norm y.
Proof.
  intros _ (_ & _ & Min). split; [apply phi_is_l1_norm|].
  intros y Ly Fy Ky. rewrite <- !phi_is_l1_norm.
  apply (Min y). apply feasible_parts. auto.
Qed.

Lemma two_assets_valid : valid two_assets.
Proof.
  unfold valid, two_assets; simpl.
  repeat split; try lia; repeat constructor; lra.
Qed.

Lemma two_assets_outcome : Rebalancer two_assets (Optimal [-2 # 4; 2 # 4]).
Proof.
  assert (E : exact_solve two_assets = Optimal [-2 # 4; 2 # 4])
    by (vm_compute; reflexivity).
  rewrite <- E. apply Rebalancer_exact; simpl; try lia; try reflexivity.
Qed.

Lemma value_conservation_witness :
  valid two_assets /\ Rebalancer two_assets (Optimal [-2 # 4; 2 # 4]) /\
  vsum (optimized two_assets [-2 # 4; 2 # 4]) == vsum (w two_assets).
Proof.
  split; [exact two_assets_valid|]. split; [exact two_assets_outcome|].
  exact (proj1 (value_conservation two_assets [-2 # 4; 2 # 4]
                  two_assets_valid two_assets_outcome)).
Defined.

Lemma return_floor_met_witness :
  valid two_assets /\ ~ vsum (w two_assets) == 0 /\
  r_min two_assets <= vmax (a_bar two_assets) /\
  (exists x, Rebalancer two_assets (Optimal x)) /\
  r_min two_assets <=
  dot (a_bar two_assets) (vadd (w two_assets) [-2 # 4; 2 # 4]) /
  vsum (w two_assets).
Proof.
  assert (NZ : ~ vsum (w two_assets) == 0) by (vm_compute; discriminate).
  assert (M : r_min two_assets <= vmax (a_bar two_assets))
    by (vm_compute; discriminate).
  split; [exact two_assets_valid|]. split; [exact NZ|]. split; [exact M|].
  split.
  - exact (proj1 (return_floor_met two_assets two_assets_valid NZ M)).
  - exact (proj1 (proj2 (return_floor_met two_assets two_assets_valid NZ M)
                    [-2 # 4; 2 # 4] two_assets_outcome)).
Defined.

Lemma l1_optimality_witness :
  valid two_assets /\ Rebalancer two_assets (Optimal [-2 # 4; 2 # 4]) /\
  l1_norm [-2 # 4; 2 # 4] <= l1_norm [-1; 1].
Proof.
  split; [exact two_assets_valid|]. split; [exact two_assets_outcome|].
  apply (proj2 (l1_optimality two_assets [-2 # 4; 2 # 4]
                  two_assets_valid two_assets_outcome) [-1; 1]).
  - reflexivity.
  - vm_compute; discriminate.
  - vm_compute; reflexivity.
Defined.

Lemma high_floor_valid : valid high_floor.
Proof.
  unfold valid, high_floor; simpl.
  repeat split; try lia; repeat constructor; lra.
Qed.

Lemma high_floor_outcome : Rebalancer high_floor (Optimal [-3; 3]).
Proof.
  assert (E : exact_solve high_floor = Optimal [-3; 3])
    by (vm_compute; reflexivity).
  rewrite <- E. apply Rebalancer_exact; simpl; try lia; try reflexivity.
Qed.

(** C4, as stated, fails: with a floor above every expected return the
    problem is still feasible when the returns differ, because a trade may
    sell more of an asset than is held. *)
Lemma infeasible_iff_above_max_fails :
  valid high_floor /\
  vmax (a_bar high_floor) < r_min high_floor /\
  ~ Rebalancer high_floor Infeasible /\
  Rebalancer high_floor (Optimal [-3; 3]).
Proof.
  split; [exact high_floor_valid|]. split; [vm_compute; reflexivity|].
  split; [|exact high_floor_outcome].
  intros [_ I]. apply (I [-3; 3]). split; reflexivity.
Qed.

(** C4, amended. On every valid input of non-zero total, the rebalancer
    reports infeasibility if and only if the floor exceeds the greatest
    expected return and all expected returns are equal; in every other
    case, and so whenever the floor is at most the greatest expected
    return, a trade vector is returned. *)
Theorem infeasible_iff (s : PortfolioState) :
  valid s -> ~ vsum (w s) == 0 ->
  (Rebalancer s Infeasible <->
   vmax (a_bar s) < r_min s /\ vmin (a_bar s) == vmax (a_bar s)) /\
  (r_min s <= vmax (a_bar s) \/ vmin (a_bar s) < vmax (a_bar s) ->
   exists x, Rebalancer s (Optimal x)).
Proof.
  intros V NZ. pose proof (valid_total_pos s V NZ) as Pos.
  pose proof V as (N1 & Lw & La & _).
  pose proof (Rebalancer_exact s N1 Lw La Pos) as R.
  pose proof (exact_solve_infeasible s V Pos) as C.
  split; [split|].
  - intros [_ I]. apply C.
    destruct R as [_ S]. pose proof (Solves_agree _ _ _ I S) as A.
    destruct (exact_solve s); simpl in A; [contradiction|reflexivity|contradiction].
  - intros H. apply C in H. now rewrite <- H.
  - intros H. destruct (exact_solve s) as [x| |] eqn:E.
    + now exists x.
    + destruct C as [C _]. specialize (C eq_refl). lra.
    + destruct R as [_ U]. now apply never_unbounded in U.
Qed.

Lemma infeasible_iff_witness :
  valid high_floor /\ ~ vsum (w high_floor) == 0 /\
  exists x, Rebalancer high_floor (Optimal x).
Proof.
  assert (NZ : ~ vsum (w high_floor) == 0) by (vm_compute; discriminate).
  split; [exact high_floor_valid|]. split; [exact NZ|].
  apply (proj2 (infeasible_iff high_floor high_floor_valid NZ)).
  right. vm_compute; reflexivity.
Defined.

(** ** The demo *)

Lemma demo_exact :
  exists x0, exact_solve demo = Optimal x0 /\ phi x0 == 2986896683 # 39526938.
Proof. eexists; split; vm_compute; reflexivity. Qed.

Lemma demo_returns : exists x, Rebalancer demo (Optimal x).
Proof.
  destruct demo_exact as (x0 & E & _). exists x0. rewrite <- E.
  apply Rebalancer_exact; simpl; try lia; reflexivity.
Qed.

(** The optimum of the demo is unique: buy the first asset, sell as much of
    the last, leave the rest. *)
Lemma demo_facts (x : vec) :
  Rebalancer demo (Optimal x) ->
  exists x1 x2 x3 x4 x5, x = [x1; x2; x3; x4; x5] /\
    x2 == 0 /\ x3 == 0 /\ x4 == 0 /\ x5 == - x1 /\
    x1 == 2986896683 # 79053876.
Proof.
  intros [_ S].
  destruct demo_exact as (x0 & E0 & P0).
  pose proof (exact_solve_correct demo) as S0.
  specialize (S0 ltac:(simpl; lia) eq_refl eq_refl ltac:(reflexivity)).
  rewrite E0 in S0.
  pose proof (Solves_agree _ _ _ S S0) as A. simpl in A. rewrite P0 in A.
  destruct S as [F _]. apply feasible_iff in F; [|reflexivity|reflexivity].
  destruct F as (L & D & Z).
  destruct x as [|x1 [|x2 [|x3 [|x4 [|x5 [|x6 x]]]]]]; try discriminate L.
  exists x1, x2, x3, x4, x5. split; [reflexivity|].
  assert (Dv : deficit demo == 2986896683 # 100000000) by reflexivity.
  rewrite Dv in D. clear Dv L S0 E0 P0.
  cbv beta iota delta [dot vsum phi vabs map demo a_bar] in *.
  abs_sign x1 A; abs_sign x2 A; abs_sign x3 A; abs_sign x4 A; abs_sign x5 A;
    repeat split; lra.
Qed.

(** C5, as stated, fails: the holdings of the demo return less than the
    floor of 1.5, and every trade vector the rebalancer returns moves more
    than 75 units of value, so the minimised cost is not near zero. *)
Lemma demo_cost_not_zero :
  weighted_return demo (zeros 5) < r_min demo /\
  (exists x, Rebalancer demo (Optimal x)) /\
  (forall x, Rebalancer demo (Optimal x) -> 75 < phi x).
Proof.
  split; [vm_compute; reflexivity|]. split; [exact demo_returns|].
  intros x R. destruct (demo_facts x R) as
    (x1 & x2 & x3 & x4 & x5 & -> & E2 & E3 & E4 & E5 & E1).
  cbv beta iota delta [phi vabs map vsum].
  rewrite E2, E3, E4, E5, E1. vm_compute; reflexivity.
Qed.

(** C5, amended. On the demo input a trade vector is returned, and every
    trade vector [x] returned keeps the total of 294, reaches a weighted
    return of at least 1.5, has cost 75.57 to within a hundredth (the
    holdings themselves return less than 1.5), and gives the holdings
    [82.78; 48.00; 65.00; 68.00; 30.22] to within half a hundredth. *)
Theorem demo_scenario :
  (exists x, Rebalancer demo (Optimal x)) /\
  (forall x, Rebalancer demo (Optimal x) ->
     vsum (optimized demo x) == 294 /\
     15 # 10 <= weighted_return demo x /\
     Qabs (phi x - (7557 # 100)) <= 1 # 100 /\
     Forall2 (fun h r => Qabs (h - r) <= 1 # 200) (optimized demo x)
       [8278 # 100; 48; 65; 68; 3022 # 100]).
Proof.
  split; [exact demo_returns|].
  intros x R. pose proof R as (_ & F & _).
  apply feasible_parts in F. destruct F as (_ & Fl & K).
  split; [rewrite K; reflexivity|]. split; [exact Fl|]. clear Fl K.
  destruct (demo_facts x R) as
    (x1 & x2 & x3 & x4 & x5 & -> & E2 & E3 & E4 & E5 & E1).
  split.
  - cbv beta iota delta [phi vabs map vsum].
    rewrite E2, E3, E4, E5, E1. vm_compute. discriminate.
  - cbv beta iota delta [optimized vadd demo w].
    repeat constructor; apply Qabs_Qle_condition; split; lra.
Qed.

(** ** Runs of the cell in a session *)



(** ** Inputs outside the invariant *)






(** ** Repeated solves *)



(** ** Short positions *)

Lemma nonneg_or_negative (h : vec) :
  Forall (fun q => 0 <= q) h \/ Exists (fun q => q < 0) h.
Proof.
  induction h as [|q h [IH|IH]].
  - left; constructor.
  - destruct (Qlt_le_dec q 0) as [L|L]; [right; now left|left; now constructor].
  - right; now right.
Qed.

(** With the floor above every expected return, no feasible trade leaves
    all holdings non-negative. *)
Lemma short_position (s : PortfolioState) (x : vec) :
  valid s -> 0 < vsum (w s) -> vmax (a_bar s) < r_min s ->
  feasible (problem s) x ->
  Exists (fun h => h < 0) (optimized s x).
Proof.
  intros (_ & Lw & La & _) Pos Above F.
  destruct (nonneg_or_negative (optimized s x)) as [A|E]; [|exact E].
  exfalso. apply feasible_parts in F. destruct F as (Lx & Fl & K).
  unfold weighted_return in Fl. rewrite Qle_div_iff in Fl by exact Pos.
  unfold optimized in *.
  assert (Lv : length (a_bar s) = length (vadd (w s) x))
    by (rewrite length_vadd; congruence).
  pose proof (dot_le_vmax _ _ Lv A) as B. rewrite K in B.
  assert (M : 0 < (r_min s - vmax (a_bar s)) * vsum (w s))
    by (apply Qmult_lt_0_compat; lra).
  lra.
Qed.

(** C10. The long-only property is not preserved: there is a valid input
    (two assets, distinct expected returns, floor above the greatest of
    them, no negative holding) on which a trade vector is returned and
    every trade vector returned leaves a negative holding. *)
Theorem long_only_not_preserved :
  exists s, valid s /\ n s = 2%nat /\ vmax (a_bar s) < r_min s /\
    (exists x, Rebalancer s (Optimal x)) /\
    (forall x, Rebalancer s (Optimal x) ->
       Exists (fun h => h < 0) (optimized s x)).
Proof.
  exists high_floor. split; [exact high_floor_valid|].
  split; [reflexivity|]. split; [vm_compute; reflexivity|].
  split; [exists [-3; 3]; exact high_floor_outcome|].
  intros x (_ & F & _).
  apply short_position; auto using high_floor_valid; vm_compute; reflexivity.
Qed.

(** ** Properties of the features *)

Import Features.

Lemma Qdiv_le_iff (a b c : Q) : 0 < c -> (b / c <= a <-> b <= a * c).
Proof.
  intros C; split; intros H.
  - assert (E : b == b / c * c) by (field; lra).
    rewrite E. apply Qmult_le_compat_r; lra.
  - now apply Qle_shift_div_r.
Qed.

Lemma bounce_defined (t b a : Q) :
  ~ a == b -> bid_ask_bounce t b a = Value ((t - b) / (a - b)).
Proof.
  intros NE. unfold bid_ask_bounce.
  destruct (Qeq_bool a b) eqn:E; [|reflexivity].
  apply Qeq_bool_iff in E. contradiction.
Qed.

(** C8, as stated, fails for a crossed quote: with the ask at 1 below the
    bid at 3, a trade at 2 is above the ask and yet its bounce is one half,
    inside [0, 1]. *)
Lemma bounce_inside_when_crossed :
  ~ 1 == 3 /\ 1 < 2 /\
  exists v, bid_ask_bounce 2 3 1 = Value v /\ 0 <= v /\ v <= 1.
Proof.
  split; [discriminate|]. split; [reflexivity|].
  eexists. split; [reflexivity|]. split; vm_compute; discriminate.
Qed.

(** C8, amended. For every trade price [t], bid [b] and ask [a] with
    [a != b] the bounce is exactly [(t - b) / (a - b)]: 0 when [t == b],
    1 when [t == a], and, when the bid is below the ask, a value outside
    [0, 1] for a trade above the ask or below the bid; when [a == b] the
    feature is the undefined value. *)
Theorem bid_ask_bounce_spec (t b a : Q) :
  (~ a == b ->
     bid_ask_bounce t b a = Value ((t - b) / (a - b)) /\
     (t == b -> (t - b) / (a - b) == 0) /\
     (t == a -> (t - b) / (a - b) == 1) /\
     (b < a -> a < t \/ t < b ->
        ~ (0 <= (t - b) / (a - b) /\ (t - b) / (a - b) <= 1))) /\
  (a == b -> bid_ask_bounce t b a = UndefinedValue).
Proof.
  split.
  - intros NE. split; [now apply bounce_defined|].
    assert (NZ : ~ a - b == 0) by (intros Z; apply NE; lra).
    split; [|split].
    + intros E. setoid_replace (t - b) with 0 by lra. field. exact NZ.
    + intros E. setoid_replace (t - b) with (a - b) by lra. field. exact NZ.
    + intros L O [H0 H1].
      rewrite Qle_div_iff in H0 by lra. rewrite Qdiv_le_iff in H1 by lra.
      lra.
  - intros E. unfold bid_ask_bounce.
    apply Qeq_bool_iff in E. now rewrite E.
Qed.




(** ** The cost function *)

Lemma all_zero_cons (q : Q) (x : vec) :
  Forall (fun r => r == 0) (q :: x) <-> q == 0 /\ Forall (fun r => r == 0) x.
Proof.
  split; [intros H; inversion H; subst; auto|intros [H1 H2]; now constructor].
Qed.

Lemma phi_zero_iff (x : vec) : phi x == 0 <-> Forall (fun q => q == 0) x.
Proof.
  induction x as [|q x IH].
  - split; [constructor|reflexivity].
  - rewrite phi_cons, all_zero_cons, <- IH.
    pose proof (Qabs_nonneg q) as A. pose proof (phi_nonneg x) as P.
    split.
    + intros H. split; [|lra].
      assert (Z : Qabs q <= 0) by lra.
      apply Qabs_Qle_condition in Z. lra.
    + intros [Hq Hx]. rewrite Hq, Hx. reflexivity.
Qed.

Lemma dot_all_zero (a x : vec) : Forall (fun q => q == 0) x -> dot a x == 0.
Proof.
  intros Z; revert a; induction Z as [|q x Hq _ IH]; intros [|p a]; simpl;
    try lra.
  rewrite Hq, IH. lra.
Qed.

Lemma length_vscale (c : Q) (v : vec) : length (vscale c v) = length v.
Proof. apply length_map. Qed.

Lemma vsum_vscale (c : Q) (v : vec) : vsum (vscale c v) == c * vsum v.
Proof.
  induction v as [|q v IH]; simpl; [lra|]. rewrite IH. lra.
Qed.

Lemma dot_vscale (c : Q) (a v : vec) : dot a (vscale c v) == c * dot a v.
Proof.
  revert v; induction a as [|p a IH]; intros [|q v]; simpl; try lra.
  rewrite IH. lra.
Qed.

Lemma phi_vscale (c : Q) (v : vec) : phi (vscale c v) == Qabs c * phi v.
Proof.
  induction v as [|q v IH]; [unfold phi; simpl; lra|].
  change (vscale c (q :: v)) with (c * q :: vscale c v).
  rewrite !phi_cons, IH, Qabs_Qmult. lra.
Qed.

(** X1. The cost of a trade vector is never negative, and it is zero
    exactly when no asset is traded. *)
Theorem phi_definite (x : vec) :
  0 <= phi x /\ (phi x == 0 <-> Forall (fun q => q == 0) x).
Proof. split; [apply phi_nonneg|apply phi_zero_iff]. Qed.

(** X2. The cost is convex: the cost of a mixture of two trade vectors of
    one length is at most the mixture of their costs. *)
Theorem phi_convex (t : Q) (x y : vec) :
  0 <= t -> t <= 1 -> length x = length y ->
  phi (vadd (vscale t x) (vscale (1 - t) y)) <= t * phi x + (1 - t) * phi y.
Proof.
  intros T0 T1 _.
  pose proof (phi_vadd (vscale t x) (vscale (1 - t) y)) as A.
  rewrite !phi_vscale in A.
  rewrite (Qabs_pos t) in A by lra. rewrite (Qabs_pos (1 - t)) in A by lra.
  exact A.
Qed.

Lemma phi_convex_witness :
  phi (vadd (vscale (1 # 2) [1; -1]) (vscale (1 - (1 # 2)) [3; 5])) <=
  (1 # 2) * phi [1; -1] + (1 - (1 # 2)) * phi [3; 5].
Proof. apply phi_convex; [lra|lra|reflexivity]. Defined.
(** ** The shape of the optimum *)

Lemma posed_facts (s : PortfolioState) (o : Outcome) :
  Rebalancer s o -> 0 < vsum (w s) ->
  (1 <= n s)%nat /\ length (w s) = n s /\ length (a_bar s) = n s.
Proof.
  intros [(Lw & La & _) _] Pos. repeat split; auto.
  destruct (w s) as [|h t]; simpl in *; [lra|lia].
Qed.

Lemma swap_cost (k i j : nat) (t : Q) :
  0 <= t -> phi (vadd (spike k i t) (spike k j (- t))) <= 2 * t.
Proof.
  intros T.
  pose proof (phi_vadd (spike k i t) (spike k j (- t))) as A.
  pose proof (phi_spike k i t) as B. pose proof (phi_spike k j (- t)) as C.
  rewrite Qabs_opp in C. rewrite (Qabs_pos t) in B, C by exact T. lra.
Qed.

(** The cost of every optimal point, in closed form. *)
Lemma optimal_cost (s : PortfolioState) (x : vec) :
  0 < vsum (w s) -> Rebalancer s (Optimal x) ->
  (deficit s <= 0 -> phi x == 0) /\
  (0 < deficit s ->
   0 < vmax (a_bar s) - vmin (a_bar s) /\
   (vmax (a_bar s) - vmin (a_bar s)) * phi x == 2 * deficit s).
Proof.
  intros Pos R. destruct (posed_facts s _ R Pos) as (N1 & Lw & La).
  destruct R as [_ S].
  pose proof (exact_solve_correct s N1 Lw La Pos) as S0.
  pose proof (Solves_agree _ _ _ S S0) as A.
  unfold exact_solve in *.
  destruct (Qle_bool (deficit s) 0) eqn:D.
  - apply Qle_bool_iff in D. split; [intros _|intros H; lra].
    simpl in A. now rewrite phi_zeros in A.
  - apply Qle_bool_false in D. split; [intros H; lra|intros _].
    destruct (Qle_bool (vmax (a_bar s) - vmin (a_bar s)) 0) eqn:G;
      [contradiction|].
    apply Qle_bool_false in G. split; [exact G|].
    simpl in A. destruct S as [F _].
    pose proof (feasible_volume s x Lw La Pos F) as V.
    set (gap := vmax (a_bar s) - vmin (a_bar s)) in *.
    assert (Tpos : 0 <= deficit s / gap)
      by (apply Qle_shift_div_l; [exact G|lra]).
    pose proof (swap_cost (n s) (argmax (a_bar s)) (argmin (a_bar s)) _ Tpos) as W.
    rewrite <- A in W.
    assert (M : gap * phi x <= gap * (2 * (deficit s / gap)))
      by (apply Qmult_le_l; assumption).
    assert (E : gap * (2 * (deficit s / gap)) == 2 * deficit s) by (field; lra).
    lra.
Qed.

(** When a trade vector reaches the bound of [dot_bound], it buys nothing
    below the greatest return and sells nothing above the least. *)
Lemma dot_bound_tight (lo hi : Q) (a y : vec) :
  Forall (fun q => lo <= q /\ q <= hi) a ->
  length a = length y ->
  (lo + hi) * vsum y + (hi - lo) * phi y <= 2 * dot a y ->
  Forall2 (fun p q => (p < hi -> q <= 0) /\ (lo < p -> 0 <= q)) a y.
Proof.
  intros B; revert y; induction B as [|p a [L H] B IH]; intros [|q y] E T;
    simpl in E; try discriminate; [constructor|].
  injection E as E.
  pose proof (dot_bound lo hi a y B E) as Tail.
  rewrite phi_cons in T. simpl dot in T. simpl vsum in T.
  destruct (Qlt_le_dec q 0) as [N|P].
  - rewrite (Qabs_neg q) in T by lra.
    assert (M : 0 <= (p - lo) * (- q)) by (apply Qmult_le_0_compat; lra).
    constructor; [|apply IH; [exact E|lra]].
    split; [intros _; lra|]. intros Lp.
    assert (M' : 0 < (p - lo) * (- q)) by (apply Qmult_lt_0_compat; lra).
    lra.
  - rewrite (Qabs_pos q) in T by lra.
    assert (M : 0 <= (hi - p) * q) by (apply Qmult_le_0_compat; lra).
    constructor; [|apply IH; [exact E|lra]].
    split; [|intros _; lra]. intros Hp.
    destruct (Qlt_le_dec 0 q) as [Q0|Q0]; [|exact Q0].
    assert (M' : 0 < (hi - p) * q) by (apply Qmult_lt_0_compat; lra).
    lra.
Qed.

(** X3. Whatever the inputs, the solve never reports an unbounded problem:
    every outcome is the report of infeasibility or a trade vector of
    non-negative cost. *)
Theorem outcome_is_bounded (s : PortfolioState) (o : Outcome) :
  Rebalancer s o ->
  o = Infeasible \/ exists x, o = Optimal x /\ 0 <= phi x.
Proof.
  intros [_ S]. destruct o as [x| |].
  - right. exists x. split; [reflexivity|apply phi_nonneg].
  - now left.
  - now apply never_unbounded in S.
Qed.

Lemma outcome_is_bounded_witness :
  Optimal [-2 # 4; 2 # 4] = Infeasible \/
  exists x, Optimal [-2 # 4; 2 # 4] = Optimal x /\ 0 <= phi x.
Proof. exact (outcome_is_bounded two_assets _ two_assets_outcome). Defined.

(** X4. The minimised cost in closed form: on inputs of positive total,
    every trade vector returned costs nothing when the holdings already
    meet the floor, and otherwise twice the missing expected value divided
    by the spread between the greatest and the least expected return. *)
Theorem optimal_cost_formula (s : PortfolioState) (x : vec) :
  0 < vsum (w s) -> Rebalancer s (Optimal x) ->
  phi x ==
  if Qle_bool (r_min s * vsum (w s)) (dot (a_bar s) (w s)) then 0
  else 2 * (r_min s * vsum (w s) - dot (a_bar s) (w s)) /
       (vmax (a_bar s) - vmin (a_bar s)).
Proof.
  intros Pos R. destruct (optimal_cost s x Pos R) as [Z NZ].
  unfold deficit in *.
  destruct (Qle_bool (r_min s * vsum (w s)) (dot (a_bar s) (w s))) eqn:D.
  - apply Qle_bool_iff in D. apply Z. lra.
  - apply Qle_bool_false in D. destruct NZ as [G E]; [lra|].
    rewrite <- E. field. lra.
Qed.

Lemma two_assets_total : 0 < vsum (w two_assets).
Proof. reflexivity. Qed.

Lemma optimal_cost_formula_witness :
  phi [-2 # 4; 2 # 4] ==
  if Qle_bool (r_min two_assets * vsum (w two_assets))
       (dot (a_bar two_assets) (w two_assets)) then 0
  else 2 * (r_min two_assets * vsum (w two_assets) -
            dot (a_bar two_assets) (w two_assets)) /
       (vmax (a_bar two_assets) - vmin (a_bar two_assets)).
Proof.
  exact (optimal_cost_formula two_assets _ two_assets_total two_assets_outcome).
Defined.

(** X5. On inputs of positive total, a trade vector that is returned
    trades nothing if and only if the holdings already meet the floor,
    that is, if and only if the expected value over the current value is at
    least [r_min]. *)
Theorem no_trade_iff_floor_met (s : PortfolioState) (x : vec) :
  0 < vsum (w s) -> Rebalancer s (Optimal x) ->
  (Forall (fun q => q == 0) x <->
   r_min s <= expected_value s / current_value s).
Proof.
  intros Pos R. destruct (optimal_cost s x Pos R) as [Z _].
  destruct (posed_facts s _ R Pos) as (_ & Lw & _).
  destruct R as (_ & F & _). apply feasible_iff in F; auto.
  destruct F as (_ & D & _).
  unfold expected_value, current_value. rewrite Qle_div_iff by exact Pos.
  unfold deficit in *. split.
  - intros A. rewrite (dot_all_zero _ _ A) in D. lra.
  - intros H. apply phi_zero_iff. apply Z. lra.
Qed.

Lemma no_trade_iff_floor_met_witness :
  Forall (fun q => q == 0) [-2 # 4; 2 # 4] <->
  r_min two_assets <= expected_value two_assets / current_value two_assets.
Proof.
  exact (no_trade_iff_floor_met two_assets _ two_assets_total
           two_assets_outcome).
Defined.

(** X6. On inputs of positive total whose holdings fall short of the
    floor, every trade vector returned meets the floor with equality: the
    optimized portfolio returns exactly [r_min], and its expected value is
    [r_min * sum(w)]. *)
Theorem floor_is_tight (s : PortfolioState) (x : vec) :
  0 < vsum (w s) -> expected_value s / current_value s < r_min s ->
  Rebalancer s (Optimal x) ->
  weighted_return s x == r_min s /\
  dot (a_bar s) (optimized s x) == r_min s * vsum (w s).
Proof.
  intros Pos Short R.
  destruct (optimal_cost s x Pos R) as [_ NZ].
  destruct (posed_facts s _ R Pos) as (_ & Lw & La).
  assert (Dpos : 0 < deficit s).
  { unfold expected_value, current_value in Short. unfold deficit.
    destruct (Qlt_le_dec 0 (r_min s * vsum (w s) - dot (a_bar s) (w s)))
      as [H|H]; [exact H|].
    exfalso. assert (C : r_min s <= dot (a_bar s) (w s) / vsum (w s))
      by (apply Qle_div_iff; [exact Pos|lra]).
    lra. }
  destruct (NZ Dpos) as [G E].
  destruct R as (_ & F & _). apply feasible_iff in F; auto.
  destruct F as (Lx & D & Z).
  pose proof (dot_bound (vmin (a_bar s)) (vmax (a_bar s)) (a_bar s) x
                (bounds_of (a_bar s)) ltac:(congruence)) as B.
  rewrite Z in B.
  assert (T : dot (a_bar s) x == deficit s) by lra.
  assert (V : dot (a_bar s) (optimized s x) == r_min s * vsum (w s)).
  { unfold optimized. rewrite dot_vadd by congruence. rewrite T.
    unfold deficit. lra. }
  split; [|exact V].
  unfold weighted_return. fold (optimized s x). rewrite V. field. lra.
Qed.

Lemma floor_is_tight_witness :
  weighted_return two_assets [-2 # 4; 2 # 4] == r_min two_assets /\
  dot (a_bar two_assets) (optimized two_assets [-2 # 4; 2 # 4]) ==
  r_min two_assets * vsum (w two_assets).
Proof.
  apply (floor_is_tight two_assets).
  - exact two_assets_total.
  - reflexivity.
  - exact two_assets_outcome.
Defined.

(** X7. On inputs of positive total, every trade vector returned buys only
    assets of the greatest expected return and sells only assets of the
    least: an asset whose return is below the greatest is never bought, one
    whose return is above the least is never sold, and one strictly between
    the two is not traded. *)
Theorem trades_only_extremes (s : PortfolioState) (x : vec) :
  0 < vsum (w s) -> Rebalancer s (Optimal x) ->
  Forall2 (fun a q =>
             (a < vmax (a_bar s) -> q <= 0) /\
             (vmin (a_bar s) < a -> 0 <= q) /\
             (vmin (a_bar s) < a -> a < vmax (a_bar s) -> q == 0))
          (a_bar s) x.
Proof.
  intros Pos R.
  destruct (optimal_cost s x Pos R) as [Z NZ].
  destruct (posed_facts s _ R Pos) as (_ & Lw & La).
  destruct R as (_ & F & _). apply feasible_iff in F; auto.
  destruct F as (Lx & D & S0).
  assert (T : Forall2 (fun p q => (p < vmax (a_bar s) -> q <= 0) /\
                                  (vmin (a_bar s) < p -> 0 <= q))
                      (a_bar s) x).
  { apply dot_bound_tight; [apply bounds_of|congruence|].
    rewrite S0. destruct (Qlt_le_dec 0 (deficit s)) as [P|N].
    - destruct (NZ P) as [_ E]. lra.
    - specialize (Z N). apply phi_zero_iff in Z.
      rewrite (dot_all_zero _ _ Z). apply phi_zero_iff in Z. rewrite Z. lra. }
  eapply Forall2_impl; [|exact T].
  intros a q [H1 H2]. repeat split; auto.
  intros L U. specialize (H1 U). specialize (H2 L). lra.
Qed.

Lemma trades_only_extremes_witness :
  Forall2 (fun a q =>
             (a < vmax (a_bar two_assets) -> q <= 0) /\
             (vmin (a_bar two_assets) < a -> 0 <= q) /\
             (vmin (a_bar two_assets) < a -> a < vmax (a_bar two_assets) ->
              q == 0))
          (a_bar two_assets) [-2 # 4; 2 # 4].
Proof.
  exact (trades_only_extremes two_assets _ two_assets_total two_assets_outcome).
Defined.

(** ** Changing the inputs *)

(** X8. Raising the floor never lowers the cost: of two trade vectors
    returned for the same holdings and returns, the one for the higher
    floor costs at least as much; and if the lower floor is infeasible, no
    trade vector is returned for the higher one. *)
Theorem cost_monotone_in_floor (s : PortfolioState) (r : Q) :
  r_min s <= r ->
  (forall x y, Rebalancer s (Optimal x) ->
               Rebalancer (with_floor r s) (Optimal y) -> phi x <= phi y) /\
  (Rebalancer s Infeasible ->
   forall y, ~ Rebalancer (with_floor r s) (Optimal y)).
Proof.
  intros Le.
  assert (Down : forall y, feasible (problem (with_floor r s)) y ->
                           feasible (problem s) y).
  { intros y F. apply feasible_parts in F. apply feasible_parts.
    destruct F as (L & Fl & K). simpl in *.
    unfold weighted_return, optimized in *. simpl in *.
    repeat split; auto. lra. }
  split.
  - intros x y (_ & _ & Min) (_ & Fy & _). apply (Min y). now apply Down.
  - intros (_ & I) y (_ & Fy & _). apply (I y). now apply Down.
Qed.

Lemma cost_monotone_in_floor_witness :
  r_min two_assets <= 3 /\ phi [-2 # 4; 2 # 4] <= phi [-3; 3].
Proof.
  assert (L : r_min two_assets <= 3) by (vm_compute; discriminate).
  split; [exact L|].
  apply (proj1 (cost_monotone_in_floor two_assets 3 L)).
  - exact two_assets_outcome.
  - exact high_floor_outcome.
Defined.

Lemma scaled_feasible (c : Q) (s : PortfolioState) (x : vec) :
  0 < c -> length (w s) = n s -> 0 < vsum (w s) ->
  feasible (problem s) x ->
  feasible (problem (scale_holdings c s)) (vscale c x).
Proof.
  intros C Lw Pos F. apply feasible_iff in F; auto.
  destruct F as (Lx & D & Z).
  assert (Pos' : 0 < vsum (w (scale_holdings c s))).
  { simpl. rewrite vsum_vscale. apply Qmult_lt_0_compat; assumption. }
  apply feasible_iff; [simpl; now rewrite length_vscale|exact Pos'|].
  split; [now rewrite length_vscale|].
  unfold deficit in *. simpl.
  rewrite !dot_vscale, !vsum_vscale. split.
  - assert (M : 0 <= c * (dot (a_bar s) x -
                          (r_min s * vsum (w s) - dot (a_bar s) (w s))))
      by (apply Qmult_le_0_compat; lra).
    lra.
  - rewrite Z. lra.
Qed.

Lemma unscaled_feasible (c : Q) (s : PortfolioState) (y : vec) :
  0 < c -> length (w s) = n s -> 0 < vsum (w s) ->
  feasible (problem (scale_holdings c s)) y ->
  feasible (problem s) (vscale (/ c) y).
Proof.
  intros C Lw Pos F.
  assert (Pos' : 0 < vsum (w (scale_holdings c s))).
  { simpl. rewrite vsum_vscale. apply Qmult_lt_0_compat; assumption. }
  assert (Ci : 0 < / c) by now apply Qinv_lt_0_compat.
  apply feasible_iff in F; [|simpl; now rewrite length_vscale|exact Pos'].
  destruct F as (Ly & D & Z). simpl in Ly.
  apply feasible_iff; auto.
  split; [now rewrite length_vscale|].
  unfold deficit in *. simpl in D.
  rewrite !dot_vscale, !vsum_vscale in D.
  rewrite dot_vscale, vsum_vscale. split.
  - assert (M : 0 <= / c * (dot (a_bar s) y -
                            (r_min s * (c * vsum (w s)) -
                             c * dot (a_bar s) (w s))))
      by (apply Qmult_le_0_compat; lra).
    assert (E : / c * (dot (a_bar s) y -
                       (r_min s * (c * vsum (w s)) - c * dot (a_bar s) (w s)))
                == / c * dot (a_bar s) y -
                   (r_min s * vsum (w s) - dot (a_bar s) (w s)))
      by (field; lra).
    lra.
  - rewrite Z. lra.
Qed.

(** X9. The solve does not depend on the unit of the holdings: on inputs
    of positive total, multiplying every holding by [c > 0] multiplies a
    returned trade vector by [c], and an infeasible problem stays
    infeasible. *)
Theorem holdings_scale (c : Q) (s : PortfolioState) :
  0 < c -> 0 < vsum (w s) ->
  (forall x, Rebalancer s (Optimal x) ->
             Rebalancer (scale_holdings c s) (Optimal (vscale c x))) /\
  (Rebalancer s Infeasible -> Rebalancer (scale_holdings c s) Infeasible).
Proof.
  intros C Pos.
  assert (WP : forall o, Rebalancer s o -> well_posed (scale_holdings c s)).
  { intros o [(Lw & La & _) _]. repeat split; simpl;
      [now rewrite length_vscale|exact La|].
    rewrite vsum_vscale. intros Z.
    assert (M : 0 < c * vsum (w s)) by (apply Qmult_lt_0_compat; assumption).
    lra. }
  split.
  - intros x R. split; [exact (WP _ R)|].
    destruct R as [(Lw & _ & _) [F Min]]. split.
    + now apply scaled_feasible.
    + intros y Fy. simpl.
      pose proof (unscaled_feasible c s y C Lw Pos Fy) as Fy'.
      specialize (Min _ Fy'). simpl in Min.
      rewrite phi_vscale in *.
      assert (Ci : 0 < / c) by now apply Qinv_lt_0_compat.
      rewrite (Qabs_pos c) by lra. rewrite (Qabs_pos (/ c)) in Min by lra.
      assert (M : c * phi x <= c * (/ c * phi y))
        by (apply Qmult_le_l; assumption).
      assert (E : c * (/ c * phi y) == phi y) by (field; lra).
      lra.
  - intros R. split; [exact (WP _ R)|].
    destruct R as [(Lw & _ & _) I]. intros y Fy.
    exact (I _ (unscaled_feasible c s y C Lw Pos Fy)).
Qed.

Lemma holdings_scale_witness :
  Rebalancer (scale_holdings 10 two_assets)
             (Optimal (vscale 10 [-2 # 4; 2 # 4])).
Proof.
  apply (proj1 (holdings_scale 10 two_assets ltac:(reflexivity)
                  two_assets_total)).
  exact two_assets_outcome.
Defined.

Lemma dot_shift (c : Q) (a v : vec) :
  length a = length v ->
  dot (map (fun p => p + c) a) v == dot a v + c * vsum v.
Proof.
  revert v; induction a as [|p a IH]; intros [|q v] E; simpl in *;
    try discriminate; [lra|].
  injection E as E. rewrite (IH v E). lra.
Qed.

Lemma feasible_shift (c : Q) (s : PortfolioState) (x : vec) :
  well_posed s ->
  (feasible (problem (shift_returns c s)) x <-> feasible (problem s) x).
Proof.
  intros (Lw & La & NZ). rewrite !feasible_parts.
  unfold weighted_return, optimized. simpl.
  split; intros (Lx & Fl & K); (split; [exact Lx|]); (split; [|exact K]).
  - rewrite dot_shift in Fl by (rewrite length_vadd; congruence).
    rewrite K in Fl.
    assert (E : (dot (a_bar s) (vadd (w s) x) + c * vsum (w s)) / vsum (w s)
                == dot (a_bar s) (vadd (w s) x) / vsum (w s) + c)
      by (field; exact NZ).
    lra.
  - rewrite dot_shift by (rewrite length_vadd; congruence).
    rewrite K.
    assert (E : (dot (a_bar s) (vadd (w s) x) + c * vsum (w s)) / vsum (w s)
                == dot (a_bar s) (vadd (w s) x) / vsum (w s) + c)
      by (field; exact NZ).
    lra.
Qed.

Lemma well_posed_shift (c : Q) (s : PortfolioState) :
  well_posed (shift_returns c s) <-> well_posed s.
Proof. unfold well_posed; simpl. now rewrite length_map. Qed.

(** X10. Only the differences between the expected returns and the floor
    matter: adding one number to every expected return and to the floor
    leaves the outcomes of the solve as they were. *)
Theorem returns_shift (c : Q) (s : PortfolioState) (o : Outcome) :
  Rebalancer (shift_returns c s) o <-> Rebalancer s o.
Proof.
  unfold Rebalancer. rewrite well_posed_shift.
  split; intros [WP S]; (split; [exact WP|]);
    pose proof (fun x => feasible_shift c s x WP) as FS;
    destruct o as [x| |]; simpl in *.
  - destruct S as [F Min]. split; [now apply FS|].
    intros y Fy. apply Min. now apply FS.
  - intros y Fy. apply (S y). now apply FS.
  - intros b. destruct (S b) as (y & Fy & L). exists y. split; [now apply FS|exact L].
  - destruct S as [F Min]. split; [now apply FS|].
    intros y Fy. apply Min. now apply FS.
  - intros y Fy. apply (S y). now apply FS.
  - intros b. destruct (S b) as (y & Fy & L). exists y. split; [now apply FS|exact L].
Qed.

(** ** The data cell *)

Lemma drawn_bounds (a h : vec) :
  length a = length h ->
  forallb drawn_holding h = true -> forallb drawn_return a = true ->
  Forall (fun q => 0 <= q) h /\
  inject_Z (Z.of_nat (length h)) <= vsum h /\
  vsum h <= inject_Z (100 * Z.of_nat (length h)) /\
  vsum h <= dot a h /\ dot a h <= 2 * vsum h.
Proof.
  revert a; induction h as [|q h IH]; intros [|p a] E Hh Ha; simpl in E;
    try discriminate.
  - split; [constructor|]. simpl.
    change (inject_Z 0) with 0.
    repeat split; lra.
  - injection E as E. simpl in Hh, Ha.
    apply andb_true_iff in Hh. destruct Hh as [Hq Hh].
    apply andb_true_iff in Ha. destruct Ha as [Hp Ha].
    destruct (IH a E Hh Ha) as (P & Lo & Hi & Cur & Exp).
    unfold drawn_holding in Hq. unfold drawn_return in Hp.
    rewrite !andb_true_iff in Hq. destruct Hq as [[_ Q1] Q100].
    rewrite andb_true_iff in Hp. destruct Hp as [P1 P2].
    apply Qle_bool_iff in Q1, Q100, P1, P2.
    assert (M1 : 0 <= (p - 1) * q) by (apply Qmult_le_0_compat; lra).
    assert (M2 : 0 <= (2 - p) * q) by (apply Qmult_le_0_compat; lra).
    assert (N : inject_Z (Z.of_nat (length (q :: h))) ==
                1 + inject_Z (Z.of_nat (length h))).
    { simpl length. rewrite Nat2Z.inj_succ. unfold Z.succ.
      rewrite inject_Z_plus. change (inject_Z 1) with 1. lra. }
    assert (N' : inject_Z (100 * Z.of_nat (length (q :: h))) ==
                 100 + inject_Z (100 * Z.of_nat (length h))).
    { simpl length. rewrite Nat2Z.inj_succ. unfold Z.succ.
      rewrite Z.mul_add_distr_l, inject_Z_plus.
      change (inject_Z (100 * 1)) with 100. lra. }
    rewrite N, N'. simpl vsum. simpl dot.
    repeat split; try lra. constructor; [lra|exact P].
Qed.

(** X11. Whatever the seed, the data cell with [n >= 1] produces inputs
    the solve can run on: no holding is negative, the current value is
    between [n] and [100 n], so that the division by [sum(w)] is defined,
    and the value expected after the returns is at least the current value
    and at most twice it. *)
Theorem generated_is_well_posed (s : PortfolioState) :
  (1 <= n s)%nat -> generated s = true ->
  valid s /\ well_posed s /\
  inject_Z (Z.of_nat (n s)) <= current_value s /\
  current_value s <= inject_Z (100 * Z.of_nat (n s)) /\
  current_value s <= expected_value s /\
  expected_value s <= 2 * current_value s.
Proof.
  intros N1 G. unfold generated in G. rewrite !andb_true_iff in G.
  destruct G as ((((Lw & La) & Hw) & Ha) & _).
  apply Nat.eqb_eq in Lw, La.
  destruct (drawn_bounds (a_bar s) (w s) ltac:(congruence) Hw Ha)
    as (P & Lo & Hi & Cur & Exp).
  rewrite Lw in Lo, Hi.
  assert (One : 1 <= inject_Z (Z.of_nat (n s))).
  { change 1 with (inject_Z 1). rewrite <- Zle_Qle. lia. }
  unfold current_value, expected_value.
  repeat split; auto. intros Z. lra.
Qed.

Lemma generated_is_well_posed_witness :
  generated demo = true /\ valid demo /\ well_posed demo /\
  current_value demo <= expected_value demo.
Proof.
  assert (G : generated demo = true) by (vm_compute; reflexivity).
  split; [exact G|].
  pose proof (generated_is_well_posed demo ltac:(simpl; lia) G) as H.
  tauto.
Defined.

(** ** Mixtures of optimal trades *)

(** X12. The optimal trades form a convex set: on inputs of positive
    total, any mixture of two trade vectors the solve may return is again a
    trade vector it may return. *)
Theorem optimal_mixture (s : PortfolioState) (t : Q) (x y : vec) :
  0 < vsum (w s) -> 0 <= t -> t <= 1 ->
  Rebalancer s (Optimal x) -> Rebalancer s (Optimal y) ->
  Rebalancer s (Optimal (vadd (vscale t x) (vscale (1 - t) y))).
Proof.
  intros Pos T0 T1 Rx Ry.
  destruct (posed_facts s _ Rx Pos) as (_ & Lw & _).
  pose proof (Solves_agree _ _ _ (proj2 Rx) (proj2 Ry)) as A. simpl in A.
  destruct Rx as (WP & Fx & Mx). destruct Ry as (_ & Fy & _).
  pose proof Fx as Fx'. pose proof Fy as Fy'.
  apply feasible_iff in Fx', Fy'; auto.
  destruct Fx' as (Lx & Dx & Zx). destruct Fy' as (Ly & Dy & Zy).
  assert (L : length (vscale t x) = length (vscale (1 - t) y))
    by (rewrite !length_vscale; congruence).
  assert (F : feasible (problem s) (vadd (vscale t x) (vscale (1 - t) y))).
  { apply feasible_iff; auto.
    rewrite length_vadd, length_vscale by exact L.
    split; [exact Lx|].
    rewrite dot_vadd, vsum_vadd by exact L.
    rewrite !dot_vscale, !vsum_vscale, Zx, Zy.
    split; [|lra].
    assert (M1 : 0 <= t * (dot (a_bar s) x - deficit s))
      by (apply Qmult_le_0_compat; lra).
    assert (M2 : 0 <= (1 - t) * (dot (a_bar s) y - deficit s))
      by (apply Qmult_le_0_compat; lra).
    lra. }
  split; [exact WP|]. split; [exact F|].
  intros z Fz. specialize (Mx z Fz). simpl in *.
  pose proof (phi_vadd (vscale t x) (vscale (1 - t) y)) as C.
  rewrite !phi_vscale in C.
  rewrite (Qabs_pos t) in C by lra. rewrite (Qabs_pos (1 - t)) in C by lra.
  rewrite <- A in C.
  assert (E : t * phi x + (1 - t) * phi x == phi x) by ring.
  lra.
Qed.

Lemma tied_returns_first : Rebalancer tied_returns (Optimal [-1; 1; 0]).
Proof.
  assert (E : exact_solve tied_returns = Optimal [-1; 1; 0])
    by (vm_compute; reflexivity).
  rewrite <- E. apply Rebalancer_exact; simpl; try lia; reflexivity.
Qed.

Lemma tied_returns_second : Rebalancer tied_returns (Optimal [-1; 0; 1]).
Proof.
  destruct tied_returns_first as (WP & _ & Min).
  split; [exact WP|]. split; [split; reflexivity|].
  intros z Fz. specialize (Min z Fz). simpl in *.
  assert (E : phi [-1; 0; 1] == phi [-1; 1; 0]) by reflexivity.
  lra.
Qed.

Lemma optimal_mixture_witness :
  Rebalancer tied_returns
    (Optimal (vadd (vscale (1 # 3) [-1; 1; 0])
                   (vscale (1 - (1 # 3)) [-1; 0; 1]))).
Proof.
  apply (optimal_mixture tied_returns (1 # 3));
    [reflexivity|lra|lra|exact tied_returns_first|exact tied_returns_second].
Defined.
